(** * Binary archives of cereal: a shallow embedding of
    [include/cereal/archives/binary.hpp].

    The output archive [BinaryOutputArchive] writes through the stream
    buffer of a seekable [std::ostream] and keeps a stack of stream
    positions; the input archive [BinaryInputArchive] reads through the
    stream buffer of a [std::istream].  Both throw [cereal::Exception] when
    the stream buffer transfers fewer bytes than requested.  C++ exceptions
    are modelled by a state-and-exception monad whose state survives the
    throw, as the stream object does in C++. *)

From Stdlib Require Import List Arith Lia ZArith Bool.
Import ListNotations.

(** ** Bytes and stream buffers *)

(** A byte ([char]) as an 8-bit integer. *)
Definition byte := Z.

(** The stream buffer behind the output stream: its contents, the put
    position, and an optional capacity (a sink that can hold at most
    [c] bytes, e.g. a full disk or a fixed array buffer; [None] for a
    growing [std::stringbuf]). *)
Record Sink := mkSink {
  obuf : list byte;
  opos : nat;
  ocap : option nat
}.

(** The stream buffer behind the input stream: its contents and the get
    position. *)
Record Source := mkSource {
  ibuf : list byte;
  ipos : nat
}.

(** Storing byte [b] at position [p]: overwrite inside the buffer, extend
    it at its end. *)
Definition store_at (p : nat) (b : byte) (l : list byte) : list byte :=
  firstn p l ++ b :: skipn (S p) l.

(** [streambuf::sputc]: [None] is [traits::eof()], the byte was not
    accepted. *)
Definition sputc (b : byte) (s : Sink) : option Sink :=
  let room := match ocap s with None => true | Some c => opos s <? c end in
  if room then Some (mkSink (store_at (opos s) b (obuf s)) (S (opos s)) (ocap s))
  else None.

(** [streambuf::sputn]: puts the bytes one by one, stops at the first one
    not accepted, and returns how many were put. *)
Fixpoint sputn (data : list byte) (s : Sink) : nat * Sink :=
  match data with
  | [] => (0, s)
  | b :: bs =>
      match sputc b s with
      | None => (0, s)
      | Some s1 => let (k, s2) := sputn bs s1 in (S k, s2)
      end
  end.

(** [ostream::tellp], [ostream::seekp(pos)] and
    [ostream::seekp(0, std::ios_base::end)]. *)
Definition tellp_of (s : Sink) : nat := opos s.
Definition seekpos (p : nat) (s : Sink) : Sink := mkSink (obuf s) p (ocap s).
Definition seekend (s : Sink) : Sink :=
  mkSink (obuf s) (length (obuf s)) (ocap s).

(** [streambuf::sbumpc] and [streambuf::sgetn]. *)
Definition sbumpc (r : Source) : option (byte * Source) :=
  match nth_error (ibuf r) (ipos r) with
  | None => None
  | Some b => Some (b, mkSource (ibuf r) (S (ipos r)))
  end.

Fixpoint sgetn (n : nat) (r : Source) : list byte * Source :=
  match n with
  | O => ([], r)
  | S n' =>
      match sbumpc r with
      | None => ([], r)
      | Some (b, r1) => let (bs, r2) := sgetn n' r1 in (b :: bs, r2)
      end
  end.

(** ** Exceptions and the archive monad *)

(** [cereal::Exception], with the two numbers its message reports. *)
Inductive exn :=
| WriteFailure (size written : nat)
| ReadFailure (size read : nat).

Inductive result (A : Type) :=
| Ok (a : A)
| Throw (e : exn).
Arguments Ok {A} a.
Arguments Throw {A} e.

Definition is_throw {A} (r : result A) : bool :=
  match r with Ok _ => false | Throw _ => true end.

Definition M (S A : Type) := S -> result A * S.

Definition ret {S A} (a : A) : M S A := fun s => (Ok a, s).

Definition bind {S A B} (m : M S A) (k : A -> M S B) : M S B :=
  fun s => match m s with
           | (Ok a, s1) => k a s1
           | (Throw e, s1) => (Throw e, s1)
           end.

Notation "x <- m ;; k" := (bind m (fun x => k))
  (at level 61, m at next level, right associativity).
Notation "m ;; k" := (bind m (fun _ => k))
  (at level 61, right associativity).

(** ** [BinaryOutputArchive] *)

(** The archive's state: the stream it writes to and [itsPositionStack]
    (top first). *)
Record Out := mkOut {
  stream : Sink;
  stack : list nat
}.

Definition with_stream (w : Out) (s : Sink) : Out := mkOut s (stack w).

Definition tellp : M Out nat := fun w => (Ok (tellp_of (stream w)), w).
Definition seekp_end : M Out unit :=
  fun w => (Ok tt, with_stream w (seekend (stream w))).

(** [saveBinary(data, size)]. *)
Definition saveBinary (data : list byte) (size : nat) : M Out unit :=
  fun w =>
    let (writtenSize, s1) := sputn (firstn size data) (stream w) in
    (if writtenSize =? size then Ok tt else Throw (WriteFailure size writtenSize),
     with_stream w s1).

(** The loop [for(i = 0; i < size; ++i) sputc('\0')]; the results of
    [sputc] are discarded. *)
Fixpoint put_zeros (size : nat) (s : Sink) : Sink :=
  match size with
  | O => s
  | S n => put_zeros n (match sputc 0%Z s with Some s1 => s1 | None => s end)
  end.

(** [pushPosition(size)]. *)
Definition pushPosition (size : nat) : M Out unit :=
  fun w =>
    let s := stream w in
    (Ok tt, mkOut (put_zeros size s) (tellp_of s :: stack w)).

(** [popPosition()]. *)
Definition popPosition : M Out bool :=
  fun w =>
    match stack w with
    | [] => (Ok true, with_stream w (seekend (stream w)))
    | top :: rest => (Ok false, mkOut (seekpos top (stream w)) rest)
    end.

(** ** [BinaryInputArchive] *)

(** [loadBinary(data, size)]: returns the bytes stored into [data]. *)
Definition loadBinary (size : nat) : M Source (list byte) :=
  fun r =>
    let (bytes, r1) := sgetn size r in
    (if length bytes =? size then Ok bytes
     else Throw (ReadFailure size (length bytes)), r1).

(** [resetPosition()]: [while( !popPosition() );], as the big-step
    semantics of the loop ... *)
Inductive reset_exec : Out -> Out -> Prop :=
| reset_done w w' : popPosition w = (Ok true, w') -> reset_exec w w'
| reset_again w w1 w2 :
    popPosition w = (Ok false, w1) -> reset_exec w1 w2 -> reset_exec w w2.

(** ... and as an executable loop, run with one iteration more than the
    number of pending positions; [true] when the loop exited. *)
Fixpoint reset_loop (fuel : nat) : M Out bool :=
  match fuel with
  | O => ret false
  | S f => b <- popPosition ;; if b then ret true else reset_loop f
  end.

Definition resetPosition : M Out bool :=
  fun w => reset_loop (S (length (stack w))) w.

(** ** Object representations of arithmetic types *)

(** The arithmetic types of C++ ([std::is_arithmetic]). *)
Inductive arith :=
| TBool | TChar | TSChar | TUChar | TWChar | TChar16 | TChar32
| TShort | TUShort | TInt | TUInt | TLong | TULong | TLongLong | TULongLong
| TFloat | TDouble | TLongDouble.

(** [sizeof] on an LP64 platform (x86-64 Linux). *)
Definition sizeof (t : arith) : nat :=
  match t with
  | TBool | TChar | TSChar | TUChar => 1
  | TChar16 | TShort | TUShort => 2
  | TWChar | TChar32 | TInt | TUInt | TFloat => 4
  | TLong | TULong | TLongLong | TULongLong | TDouble => 8
  | TLongDouble => 16
  end.

(** A value of an arithmetic type, given by the bits of its object
    representation (an integer, or the IEEE-754 pattern of a float). *)
Record scalar := mkScalar {
  sty : arith;
  sbits : Z
}.

Definition valid (v : scalar) : Prop :=
  (0 <= sbits v < 2 ^ (8 * Z.of_nat (sizeof (sty v))))%Z.

Inductive endian := LittleEndian | BigEndian.

(** Bytes of a [n]-byte integer, least significant first, and back. *)
Fixpoint encode_le (n : nat) (x : Z) : list byte :=
  match n with
  | O => []
  | S n' => Z.land x 255 :: encode_le n' (Z.shiftr x 8)
  end.

Fixpoint decode_le (l : list byte) : Z :=
  match l with
  | [] => 0%Z
  | b :: bs => (b + Z.shiftl (decode_le bs) 8)%Z
  end.

(** ** The adapters: free [save]/[load] functions of binary.hpp *)

Section Adapters.

(** Byte order of the machine: the archive writes the native in-memory
    representation. *)
Variable native : endian.

Definition obj_repr (t : arith) (bits : Z) : list byte :=
  match native with
  | LittleEndian => encode_le (sizeof t) bits
  | BigEndian => rev (encode_le (sizeof t) bits)
  end.

Definition of_repr (bytes : list byte) : Z :=
  match native with
  | LittleEndian => decode_le bytes
  | BigEndian => decode_le (rev bytes)
  end.

(** [save(BinaryOutputArchive &, T const &)] for arithmetic [T]:
    [ar.saveBinary(std::addressof(t), sizeof(t))]. *)
Definition save_scalar (v : scalar) : M Out unit :=
  saveBinary (obj_repr (sty v) (sbits v)) (sizeof (sty v)).

(** [load(BinaryInputArchive &, T &)] for arithmetic [T], into a variable
    of type [t]. *)
Definition load_scalar (t : arith) : M Source scalar :=
  bytes <- loadBinary (sizeof t) ;; ret (mkScalar t (of_repr bytes)).

(** A C array [T[N]] of an arithmetic type (a multidimensional array is
    the same contiguous run of [std::remove_all_extents] elements). *)
Record carray := mkCArray {
  aty : arith;
  aelems : list Z
}.

(** Its storage: the element representations, contiguous. *)
Definition array_bytes (a : carray) : list byte :=
  concat (map (obj_repr (aty a)) (aelems a)).

(** [traits::sizeof_array<T>() * sizeof(remove_all_extents<T>::type)]. *)
Definition array_size (a : carray) : nat := length (aelems a) * sizeof (aty a).

(** [save(BinaryOutputArchive &, T const & array)] for array [T]. *)
Definition save_array (a : carray) : M Out unit :=
  saveBinary (array_bytes a) (array_size a).

(** Reading the elements back out of [n] elements' worth of storage. *)
Fixpoint array_of_bytes (sz n : nat) (bytes : list byte) : list Z :=
  match n with
  | O => []
  | S n' => of_repr (firstn sz bytes) :: array_of_bytes sz n' (skipn sz bytes)
  end.

(** [load(BinaryInputArchive &, T & array)] for an array [T] of [n]
    elements of type [t]. *)
Definition load_array (t : arith) (n : nat) : M Source carray :=
  bytes <- loadBinary (n * sizeof t) ;;
  ret (mkCArray t (array_of_bytes (sizeof t) n bytes)).

(** Element-by-element serialization with the scalar adapter. *)
Fixpoint save_elems (t : arith) (xs : list Z) : M Out unit :=
  match xs with
  | [] => ret tt
  | x :: xs' => save_scalar (mkScalar t x) ;; save_elems t xs'
  end.

Fixpoint load_elems (t : arith) (n : nat) : M Source (list Z) :=
  match n with
  | O => ret []
  | S n' => x <- load_scalar t ;; xs <- load_elems t n' ;; ret (sbits x :: xs)
  end.

End Adapters.

(** [BinaryData<T>]: a pointer of type [T] (the declared element type,
    which the binary archive never looks at) to [size] bytes; [bd_data]
    is the memory it points to. *)
Record BinaryData (T : Type) := mkBinaryData {
  bd_data : list byte;
  bd_size : nat
}.
Arguments mkBinaryData {T} bd_data bd_size.
Arguments bd_data {T} b.
Arguments bd_size {T} b.

(** [save(BinaryOutputArchive &, BinaryData<T> const &)]. *)
Definition save_binary_data {T} (bd : BinaryData T) : M Out unit :=
  saveBinary (bd_data bd) (bd_size bd).

(** [load(BinaryInputArchive &, BinaryData<T> &)]: the first [size] bytes
    of the pointed-to memory are overwritten. *)
Definition load_binary_data {T} (bd : BinaryData T) : M Source (BinaryData T) :=
  bytes <- loadBinary (bd_size bd) ;;
  ret (mkBinaryData (bytes ++ skipn (bd_size bd) (bd_data bd)) (bd_size bd)).

(** ** Client programs over the output archive *)

(** Consecutive writes of whole buffers. *)
Fixpoint save_all (ds : list (list byte)) : M Out unit :=
  match ds with
  | [] => ret tt
  | d :: ds' => saveBinary d (length d) ;; save_all ds'
  end.

(** Back-patching a placeholder: reserve [size] bytes, write [ds], return
    to the mark, write the final value there, seek to the tail. *)
Definition patch_placeholder (size : nat) (ds : list (list byte))
    (final : list byte) : M Out unit :=
  pushPosition size ;;
  save_all ds ;;
  popPosition ;;
  saveBinary final size ;;
  seekp_end.

(** Nested placeholders: for each [(size, d)] record the position
    ([tellp]), [pushPosition(size)] and write [d]; return the positions. *)
Fixpoint push_all (ps : list (nat * list byte)) : M Out (list nat) :=
  match ps with
  | [] => ret []
  | (size, d) :: ps' =>
      m <- tellp ;;
      pushPosition size ;;
      saveBinary d (length d) ;;
      ms <- push_all ps' ;;
      ret (m :: ms)
  end.

(** [n] calls of [popPosition], each with its result and the position it
    leaves the stream at. *)
Fixpoint pop_n (n : nat) : M Out (list (bool * nat)) :=
  match n with
  | O => ret []
  | S n' =>
      r <- popPosition ;;
      p <- tellp ;;
      rs <- pop_n n' ;;
      ret ((r, p) :: rs)
  end.

Definition stream_length : M Out nat :=
  fun w => (Ok (length (obuf (stream w))), w).

(** Push the markers, then pop once more than there are markers. *)
Definition nested_marks (ps : list (nat * list byte)) :
    M Out (list nat * list (bool * nat) * nat) :=
  ms <- push_all ps ;;
  rs <- pop_n (S (length ps)) ;;
  len <- stream_length ;;
  ret (ms, rs, len).

(** Scalars of any arithmetic types saved one after the other, and read
    back with the given types, in order. *)
Fixpoint save_scalars (native : endian) (vs : list scalar) : M Out unit :=
  match vs with
  | [] => ret tt
  | v :: vs' => save_scalar native v ;; save_scalars native vs'
  end.

Fixpoint load_scalars (native : endian) (ts : list arith) : M Source (list scalar) :=
  match ts with
  | [] => ret []
  | t :: ts' =>
      v <- load_scalar native t ;;
      vs <- load_scalars native ts' ;;
      ret (v :: vs)
  end.

(** ** Vocabulary of the statements *)

(** How many of [n] bytes the sink accepts from its put position. *)
Definition sink_accepts (s : Sink) (n : nat) : nat :=
  match ocap s with
  | None => n
  | Some c => Nat.min n (c - opos s)
  end.

(** The sink can take [n] more bytes from its put position. *)
Definition room_for (s : Sink) (n : nat) : Prop :=
  match ocap s with
  | None => True
  | Some c => opos s + n <= c
  end.

(** [l] with the bytes from [p] on replaced by [d]. *)
Definition overwrite (p : nat) (d l : list byte) : list byte :=
  firstn p l ++ d ++ skipn (p + length d) l.

(** The bytes of a sequence of scalars saved one after another. *)
Definition scalars_repr (native : endian) (vs : list scalar) : list byte :=
  concat (map (fun v => obj_repr native (sty v) (sbits v)) vs).

(** The states the output archive reaches: the put position and every
    saved position lie within the stream. *)
Definition wf (w : Out) : Prop :=
  opos (stream w) <= length (obuf (stream w)) /\
  Forall (fun m => m <= length (obuf (stream w))) (stack w).

(** A result with its exception forgotten. *)
Definition to_option {A} (r : result A) : option A :=
  match r with Ok a => Some a | Throw _ => None end.

(** ** Stream buffer lemmas *)

Lemma firstn_S_middle {A} (l1 r : list A) (b : A) p :
  length l1 = p -> firstn (S p) (l1 ++ b :: r) = l1 ++ [b].
Proof.
  intros <-. induction l1 as [|x l1 IH]; [reflexivity|].
  change (x :: firstn (S (length l1)) (l1 ++ b :: r) = x :: l1 ++ [b]).
  now rewrite IH.
Qed.

Lemma skipn_S_middle {A} (l1 r : list A) (b : A) p k :
  length l1 = p -> skipn (S p + k) (l1 ++ b :: r) = skipn k r.
Proof.
  intros <-. induction l1 as [|x l1 IH]; [reflexivity|].
  change (skipn (S (length l1) + k) (l1 ++ b :: r) = skipn k r). exact IH.
Qed.

Lemma skipn_app_exact {A} (l1 l2 : list A) :
  skipn (length l1) (l1 ++ l2) = l2.
Proof. induction l1; simpl; auto. Qed.

Lemma overwrite_nil p l : overwrite p [] l = l.
Proof. unfold overwrite; simpl. rewrite Nat.add_0_r. apply firstn_skipn. Qed.

Lemma overwrite_cons p b d l :
  p <= length l ->
  overwrite (S p) d (store_at p b l) = overwrite p (b :: d) l.
Proof.
  intros Hp. unfold overwrite, store_at.
  assert (Hl : length (firstn p l) = p) by (apply firstn_length_le; lia).
  rewrite (firstn_S_middle _ _ _ _ Hl), (skipn_S_middle _ _ _ _ _ Hl), skipn_skipn.
  rewrite <- app_assoc. simpl. do 4 f_equal. lia.
Qed.

Lemma length_store_at p b l :
  p <= length l -> S p <= length (store_at p b l).
Proof.
  intros Hp. unfold store_at. rewrite length_app, firstn_length_le by lia.
  simpl. lia.
Qed.

Lemma sputn_count data s : fst (sputn data s) = sink_accepts s (length data).
Proof.
  revert s. induction data as [|b bs IH]; intros [buf p cap].
  - unfold sink_accepts; simpl. destruct cap; simpl; lia.
  - simpl. unfold sputc, sink_accepts; simpl.
    destruct cap as [c|].
    + destruct (Nat.ltb_spec p c) as [Hlt|Hge].
      * specialize (IH (mkSink (store_at p b buf) (S p) (Some c))).
        destruct (sputn bs _) as [k s2] eqn:E. simpl in *.
        unfold sink_accepts in IH; simpl in IH.
        replace (c - p) with (S (c - S p)) by lia. lia.
      * destruct (c - p) eqn:?; simpl; lia.
    + specialize (IH (mkSink (store_at p b buf) (S p) None)).
      destruct (sputn bs _) as [k s2] eqn:E. simpl in *. now rewrite IH.
Qed.

Lemma sputn_spec data s :
  opos s <= length (obuf s) ->
  let k := sink_accepts s (length data) in
  sputn data s = (k, mkSink (overwrite (opos s) (firstn k data) (obuf s))
                            (opos s + k) (ocap s)).
Proof.
  intros Hp k. subst k. rewrite <- sputn_count.
  revert s Hp. induction data as [|b bs IH]; intros [buf p cap] Hp; simpl in *.
  - now rewrite overwrite_nil, Nat.add_0_r.
  - unfold sputc; simpl.
    destruct (match cap with Some c => p <? c | None => true end).
    + specialize (IH (mkSink (store_at p b buf) (S p) cap)
                     (length_store_at p b buf Hp)).
      destruct (sputn bs _) as [k s2] eqn:E. simpl in *. injection IH as ->.
      f_equal. f_equal; [now apply overwrite_cons | lia].
    + simpl. now rewrite overwrite_nil, Nat.add_0_r.
Qed.

Lemma nth_error_skipn {A} (l : list A) p b :
  nth_error l p = Some b -> skipn p l = b :: skipn (S p) l.
Proof.
  revert p. induction l as [|x l IH]; intros [|p] H; simpl in *;
    try discriminate; [congruence | auto].
Qed.

Lemma sgetn_spec n r :
  sgetn n r = (firstn n (skipn (ipos r) (ibuf r)),
               mkSource (ibuf r) (ipos r + Nat.min n (length (ibuf r) - ipos r))).
Proof.
  revert r. induction n as [|n IH]; intros [buf p]; simpl.
  - now rewrite Nat.add_0_r.
  - unfold sbumpc; simpl. destruct (nth_error buf p) as [b|] eqn:E.
    + rewrite IH; simpl. rewrite (nth_error_skipn _ _ _ E). simpl.
      assert (p < length buf) by (apply nth_error_Some; congruence).
      replace (length buf - p) with (S (length buf - S p)) by lia.
      f_equal. f_equal. simpl. lia.
    + apply nth_error_None in E. rewrite skipn_all2 by lia.
      replace (length buf - p) with 0 by lia. simpl. f_equal. f_equal. lia.
Qed.

(** ** [saveBinary] and [loadBinary] *)

Lemma saveBinary_spec data size w :
  opos (stream w) <= length (obuf (stream w)) ->
  let s := stream w in
  let k := sink_accepts s (length (firstn size data)) in
  saveBinary data size w =
    (if k =? size then Ok tt else Throw (WriteFailure size k),
     with_stream w (mkSink (overwrite (opos s) (firstn k (firstn size data)) (obuf s))
                           (opos s + k) (ocap s))).
Proof.
  intros Hp s k. unfold saveBinary. rewrite (sputn_spec _ _ Hp). reflexivity.
Qed.

(** A successful [saveBinary] of a whole buffer [data]. *)
Lemma saveBinary_ok data w w' :
  opos (stream w) <= length (obuf (stream w)) ->
  saveBinary data (length data) w = (Ok tt, w') ->
  w' = with_stream w (mkSink (overwrite (opos (stream w)) data (obuf (stream w)))
                             (opos (stream w) + length data) (ocap (stream w))).
Proof.
  intros Hp H. rewrite (saveBinary_spec _ _ _ Hp) in H.
  rewrite firstn_all in H.
  destruct (Nat.eqb_spec (sink_accepts (stream w) (length data)) (length data))
    as [E|E]; [|discriminate].
  rewrite E, firstn_all in H. congruence.
Qed.

Lemma length_overwrite p d l :
  p <= length l -> p + length d <= length (overwrite p d l).
Proof.
  intros Hp. unfold overwrite. rewrite !length_app, firstn_length_le by lia. lia.
Qed.

Lemma skipn_overwrite p d l :
  p <= length l -> skipn p (overwrite p d l) = d ++ skipn (p + length d) l.
Proof.
  intros Hp. unfold overwrite.
  rewrite <- (firstn_length_le l Hp) at 1. apply skipn_app_exact.
Qed.

(** Reading back, from the mark, bytes just written there. *)
Lemma loadBinary_overwrite p d l :
  p <= length l ->
  loadBinary (length d) (mkSource (overwrite p d l) p) =
    (Ok d, mkSource (overwrite p d l) (p + length d)).
Proof.
  intros Hp. unfold loadBinary. rewrite sgetn_spec; simpl.
  rewrite (skipn_overwrite _ _ _ Hp), firstn_app, firstn_all, Nat.sub_diag.
  simpl. rewrite app_nil_r, Nat.eqb_refl.
  pose proof (length_overwrite p d l Hp).
  f_equal. f_equal. lia.
Qed.

(** ** Encoding of scalars *)

Lemma encode_le_length n x : length (encode_le n x) = n.
Proof. revert x; induction n; intros x; simpl; auto. Qed.

Lemma decode_encode_le n x :
  (0 <= x < 2 ^ (8 * Z.of_nat n))%Z -> decode_le (encode_le n x) = x.
Proof.
  revert x. induction n as [|n IH]; intros x Hx; cbn [decode_le encode_le].
  - simpl in Hx. lia.
  - rewrite IH.
    + change 255%Z with (Z.ones 8).
      rewrite Z.land_ones, Z.shiftr_div_pow2, Z.shiftl_mul_pow2 by lia.
      change (2 ^ 8)%Z with 256%Z.
      rewrite (Z.div_mod x 256) at 3 by lia. lia.
    + rewrite Z.shiftr_div_pow2 by lia. change (2 ^ 8)%Z with 256%Z.
      replace (8 * Z.of_nat (S n))%Z with (8 + 8 * Z.of_nat n)%Z in Hx by lia.
      rewrite Z.pow_add_r in Hx by lia. change (2 ^ 8)%Z with 256%Z in Hx.
      split; [apply Z.div_pos; lia|].
      apply Z.div_lt_upper_bound; lia.
Qed.

Lemma obj_repr_length native t bits : length (obj_repr native t bits) = sizeof t.
Proof.
  unfold obj_repr. destruct native; rewrite ?length_rev; apply encode_le_length.
Qed.

Lemma of_repr_obj_repr native v :
  valid v -> of_repr native (obj_repr native (sty v) (sbits v)) = sbits v.
Proof.
  intros Hv. unfold of_repr, obj_repr.
  destruct native; rewrite ?rev_involutive; now apply decode_encode_le.
Qed.

(** ** Round trips and short transfers *)

(** C1: an arithmetic value saved by the scalar adapter and loaded, from
    the position it was written at, into a fresh variable of the same type
    comes back with the same bits; the reader ends where the writer did. *)
Theorem scalar_roundtrip (native : endian) (v : scalar) (w w' : Out) :
  valid v ->
  opos (stream w) <= length (obuf (stream w)) ->
  save_scalar native v w = (Ok tt, w') ->
  load_scalar native (sty v) (mkSource (obuf (stream w')) (opos (stream w))) =
    (Ok v, mkSource (obuf (stream w')) (opos (stream w'))).
Proof.
  intros Hv Hp H. unfold save_scalar in H.
  rewrite <- (obj_repr_length native (sty v) (sbits v)) in H.
  apply (saveBinary_ok _ _ _ Hp) in H. subst w'. simpl.
  unfold load_scalar, bind.
  rewrite <- (obj_repr_length native (sty v) (sbits v)).
  rewrite (loadBinary_overwrite _ _ _ Hp). unfold ret.
  rewrite (of_repr_obj_repr _ _ Hv). now destruct v.
Qed.

Lemma scalar_roundtrip_witness :
  let v := mkScalar TInt 42 in
  let w := mkOut (mkSink [] 0 None) [] in
  let w' := snd (save_scalar LittleEndian v w) in
  valid v /\ opos (stream w) <= length (obuf (stream w)) /\
  save_scalar LittleEndian v w = (Ok tt, w') /\
  load_scalar LittleEndian (sty v) (mkSource (obuf (stream w')) (opos (stream w))) =
    (Ok v, mkSource (obuf (stream w')) (opos (stream w'))).
Proof.
  intros v w w'.
  assert (Hv : valid v) by (unfold valid; simpl; lia).
  assert (Hp : opos (stream w) <= length (obuf (stream w))) by (simpl; lia).
  assert (Hs : save_scalar LittleEndian v w = (Ok tt, w')) by reflexivity.
  split; [exact Hv|]. split; [exact Hp|]. split; [exact Hs|].
  exact (scalar_roundtrip LittleEndian v w w' Hv Hp Hs).
Defined.

Lemma saveBinary_throws_iff (w : Out) (data : list byte) :
  is_throw (fst (saveBinary data (length data) w)) = true <->
  sink_accepts (stream w) (length data) < length data.
Proof.
  unfold saveBinary. rewrite firstn_all.
  pose proof (sputn_count data (stream w)) as Hc.
  destruct (sputn data (stream w)) as [k s1]. simpl in *. subst k.
  assert (Hle : sink_accepts (stream w) (length data) <= length data).
  { unfold sink_accepts. destruct (ocap (stream w)); lia. }
  destruct (Nat.eqb_spec (sink_accepts (stream w) (length data)) (length data));
    simpl; split; intros; try lia; congruence.
Qed.

Lemma loadBinary_throws_iff (r : Source) (n : nat) :
  is_throw (fst (loadBinary n r)) = true <-> length (ibuf r) - ipos r < n.
Proof.
  unfold loadBinary. rewrite sgetn_spec. simpl.
  rewrite length_firstn, length_skipn.
  destruct (Nat.eqb_spec (Nat.min n (length (ibuf r) - ipos r)) n);
    simpl; split; intros; try lia; congruence.
Qed.

(** C3: [saveBinary] of [n] bytes throws exactly when the sink accepts
    fewer than [n] of them, and [loadBinary] of [n] bytes throws exactly
    when fewer than [n] bytes are left in the source. *)
Theorem short_io_throws :
  (forall (w : Out) (data : list byte),
      is_throw (fst (saveBinary data (length data) w)) = true <->
      sink_accepts (stream w) (length data) < length data) /\
  (forall (r : Source) (n : nat),
      is_throw (fst (loadBinary n r)) = true <->
      length (ibuf r) - ipos r < n).
Proof. split; [exact saveBinary_throws_iff | exact loadBinary_throws_iff]. Qed.

(** C8: a raw buffer of [n] bytes saved through [BinaryData<T>] is read
    back whole through a [BinaryData<U>] of [n] bytes, whatever [T] and
    [U] are. *)
Theorem binary_data_roundtrip {T U : Type} (bd : BinaryData T) (dst : BinaryData U)
    (w w' : Out) :
  length (bd_data bd) = bd_size bd ->
  bd_size dst = bd_size bd ->
  length (bd_data dst) = bd_size dst ->
  opos (stream w) <= length (obuf (stream w)) ->
  save_binary_data bd w = (Ok tt, w') ->
  load_binary_data dst (mkSource (obuf (stream w')) (opos (stream w))) =
    (Ok (mkBinaryData (bd_data bd) (bd_size dst)),
     mkSource (obuf (stream w')) (opos (stream w'))).
Proof.
  intros Hl Hsz Hd Hp H. unfold save_binary_data in H. rewrite <- Hl in H.
  apply (saveBinary_ok _ _ _ Hp) in H. subst w'. simpl.
  unfold load_binary_data, bind. rewrite Hsz, <- Hl.
  rewrite (loadBinary_overwrite _ _ _ Hp). unfold ret.
  rewrite skipn_all2 by lia. now rewrite app_nil_r.
Qed.

Lemma binary_data_roundtrip_witness :
  let bd : BinaryData nat := mkBinaryData [1; 2; 3; 4; 5; 6; 7; 8]%Z 8 in
  let dst : BinaryData bool := mkBinaryData (repeat 0%Z 8) 8 in
  let w := mkOut (mkSink [9; 9]%Z 2 None) [] in
  let w' := snd (save_binary_data bd w) in
  load_binary_data dst (mkSource (obuf (stream w')) (opos (stream w))) =
    (Ok (mkBinaryData (bd_data bd) (bd_size dst)),
     mkSource (obuf (stream w')) (opos (stream w'))).
Proof.
  intros bd dst w w'.
  apply (binary_data_roundtrip bd dst w w'); simpl; try reflexivity; lia.
Defined.

(** ** The position stack *)

Lemma sputc_none_stable b b' s :
  sputc b s = None -> sputc b' s = None.
Proof.
  unfold sputc. destruct (ocap s) as [c|]; [destruct (opos s <? c)|]; congruence.
Qed.

Lemma put_zeros_sputn size s : put_zeros size s = snd (sputn (repeat 0%Z size) s).
Proof.
  revert s. induction size as [|n IH]; intros s; [reflexivity|].
  cbn [put_zeros repeat sputn].
  destruct (sputc 0%Z s) as [s1|] eqn:E.
  - rewrite IH. now destruct (sputn (repeat 0%Z n) s1).
  - simpl. clear IH. induction n as [|n IHn]; [reflexivity|].
    cbn [put_zeros]. now rewrite E.
Qed.

Lemma sputn_pos data s : opos (snd (sputn data s)) = opos s + fst (sputn data s).
Proof.
  revert s. induction data as [|b bs IH]; intros s; simpl; [lia|].
  destruct (sputc b s) as [s1|] eqn:E; simpl; [|lia].
  specialize (IH s1). destruct (sputn bs s1) as [k s2]; simpl in *.
  unfold sputc in E.
  destruct (ocap s) as [c|]; [destruct (opos s <? c)|]; inversion E; subst.
  all: simpl in IH; lia.
Qed.

Lemma firstn_repeat {A} (x : A) k n : firstn k (repeat x n) = repeat x (Nat.min k n).
Proof.
  revert n. induction k as [|k IH]; intros [|n]; simpl; auto. now rewrite IH.
Qed.

Lemma room_for_accepts s n : room_for s n -> sink_accepts s n = n.
Proof. unfold room_for, sink_accepts. destruct (ocap s); lia. Qed.

(** [pushPosition] in general: the sink takes as many zeros as it accepts. *)
Lemma pushPosition_general size w :
  opos (stream w) <= length (obuf (stream w)) ->
  let s := stream w in
  let k := sink_accepts s size in
  pushPosition size w =
    (Ok tt, mkOut (mkSink (overwrite (opos s) (repeat 0%Z k) (obuf s))
                          (opos s + k) (ocap s))
                  (opos s :: stack w)).
Proof.
  intros Hp s k. unfold pushPosition. rewrite put_zeros_sputn, (sputn_spec _ _ Hp).
  simpl. rewrite repeat_length, firstn_repeat.
  replace (Nat.min (sink_accepts (stream w) size) size) with k; [reflexivity|].
  subst k s. unfold sink_accepts. destruct (ocap (stream w)); lia.
Qed.

(** C5: [pushPosition(size)] pushes the position it was called at and
    writes [size] zero bytes there, leaving the position [size] bytes
    further and every other byte of the stream as it was. *)
Theorem pushPosition_spec (size : nat) (w : Out) :
  opos (stream w) <= length (obuf (stream w)) ->
  room_for (stream w) size ->
  let s := stream w in
  pushPosition size w =
    (Ok tt, mkOut (mkSink (firstn (opos s) (obuf s) ++ repeat 0%Z size ++
                             skipn (opos s + size) (obuf s))
                          (opos s + size) (ocap s))
                  (opos s :: stack w)).
Proof.
  intros Hp Hr s. rewrite (pushPosition_general _ _ Hp).
  unfold s. rewrite (room_for_accepts _ _ Hr). unfold overwrite.
  now rewrite repeat_length.
Qed.

Lemma pushPosition_spec_witness :
  let w := mkOut (mkSink [7; 7; 7]%Z 1 None) [0] in
  let s := stream w in
  pushPosition 4 w =
    (Ok tt, mkOut (mkSink (firstn (opos s) (obuf s) ++ repeat 0%Z 4 ++
                             skipn (opos s + 4) (obuf s))
                          (opos s + 4) (ocap s))
                  (opos s :: stack w)).
Proof.
  intros w s. apply (pushPosition_spec 4 w); simpl; [lia | exact I].
Defined.

(** C6: [popPosition] on a non-empty stack seeks to the top position,
    pops it and returns [false], the bytes untouched; on an empty stack
    it seeks to the end of the stream and returns [true]. *)
Theorem popPosition_spec :
  (forall (s : Sink) (top : nat) (rest : list nat),
      popPosition (mkOut s (top :: rest)) =
        (Ok false, mkOut (mkSink (obuf s) top (ocap s)) rest)) /\
  (forall s : Sink,
      popPosition (mkOut s []) =
        (Ok true, mkOut (mkSink (obuf s) (length (obuf s)) (ocap s)) [])).
Proof. split; intros; reflexivity. Qed.

(** C10: [pushPosition] never throws; when the sink takes fewer than
    [size] bytes it just moves fewer bytes on, where [saveBinary] of the
    same zeros throws. *)
Theorem pushPosition_never_throws (size : nat) (w : Out) :
  fst (pushPosition size w) = Ok tt /\
  opos (stream (snd (pushPosition size w))) =
    opos (stream w) + sink_accepts (stream w) size /\
  (sink_accepts (stream w) size < size ->
   is_throw (fst (saveBinary (repeat 0%Z size) size w)) = true).
Proof.
  split; [reflexivity|]. split.
  - simpl. rewrite put_zeros_sputn, sputn_pos, sputn_count, repeat_length.
    reflexivity.
  - intros Hlt. pose proof (saveBinary_throws_iff w (repeat 0%Z size)) as H.
    rewrite repeat_length in H. now apply H.
Qed.

Lemma pushPosition_never_throws_witness :
  let w := mkOut (mkSink [] 0 (Some 2)) [] in
  sink_accepts (stream w) 4 < 4 /\
  (fst (pushPosition 4 w) = Ok tt /\
   opos (stream (snd (pushPosition 4 w))) = opos (stream w) + sink_accepts (stream w) 4 /\
   (sink_accepts (stream w) 4 < 4 ->
    is_throw (fst (saveBinary (repeat 0%Z 4) 4 w)) = true)).
Proof.
  intros w. split; [vm_compute; lia | exact (pushPosition_never_throws 4 w)].
Defined.

(** ** [resetPosition] *)

Lemma seekend_seekpos p s : seekend (seekpos p s) = seekend s.
Proof. now destruct s. Qed.

Lemma reset_loop_spec n w :
  length (stack w) < n ->
  reset_loop n w = (Ok true, mkOut (seekend (stream w)) []) /\
  reset_exec w (mkOut (seekend (stream w)) []).
Proof.
  revert w. induction n as [|n IH]; intros [s st] Hlt; simpl in Hlt; [lia|].
  destruct st as [|top rest].
  - split; [reflexivity|]. now apply reset_done.
  - destruct (IH (mkOut (seekpos top s) rest)) as [E X]; [simpl in *; lia|].
    simpl in E, X. rewrite seekend_seekpos in E, X.
    split.
    + cbn [reset_loop]. unfold bind. simpl. exact E.
    + eapply reset_again; [reflexivity | exact X].
Qed.

(** Every run of the loop ends in the same state. *)
Lemma reset_exec_result w w' :
  reset_exec w w' -> w' = mkOut (seekend (stream w)) [].
Proof.
  induction 1 as [w w' H | w w1 w2 H _ IH].
  - destruct w as [s [|top rest]]; simpl in H; inversion H; reflexivity.
  - destruct w as [s [|top rest]]; simpl in H; inversion H; subst.
    simpl. now rewrite seekend_seekpos.
Qed.

(** C9: [resetPosition] terminates from any state: the loop runs to its
    exit, which leaves the position stack empty and the stream, with the
    same bytes, positioned at its end. *)
Theorem resetPosition_terminates (w : Out) :
  reset_exec w (snd (resetPosition w)) /\
  fst (resetPosition w) = Ok true /\
  stack (snd (resetPosition w)) = [] /\
  obuf (stream (snd (resetPosition w))) = obuf (stream w) /\
  opos (stream (snd (resetPosition w))) = length (obuf (stream (snd (resetPosition w)))).
Proof.
  destruct (reset_loop_spec (S (length (stack w))) w) as [E X]; [lia|].
  unfold resetPosition. rewrite E. simpl.
  repeat split; assumption || reflexivity.
Qed.

(** ** Nested markers *)

Lemma saveBinary_stack data size w : stack (snd (saveBinary data size w)) = stack w.
Proof. unfold saveBinary. now destruct (sputn _ _). Qed.

Lemma push_all_stack ps w ms w' :
  push_all ps w = (Ok ms, w') ->
  stack w' = rev ms ++ stack w /\ length ms = length ps.
Proof.
  revert w ms w'. induction ps as [|[size d] ps IH]; intros w ms w' H.
  - simpl in H. inversion H; subst. auto.
  - cbn [push_all] in H. unfold bind, tellp, pushPosition at 1 in H. simpl in H.
    set (w1 := mkOut _ _) in H.
    destruct (saveBinary d (length d) w1) as [[u|e] w2] eqn:E2; [|discriminate].
    pose proof (saveBinary_stack d (length d) w1) as Hs. rewrite E2 in Hs.
    simpl in Hs.
    destruct (push_all ps w2) as [[ms'|e] w3] eqn:E3; [|discriminate].
    unfold ret in H. inversion H; subst.
    destruct (IH _ _ _ E3) as [Hst Hl]. split; [|simpl; lia].
    rewrite Hst, Hs. simpl. now rewrite <- app_assoc.
Qed.

Lemma pop_n_spec l w :
  stack w = l ->
  pop_n (S (length l)) w =
    (Ok (map (fun m => (false, m)) l ++ [(true, length (obuf (stream w)))]),
     mkOut (seekend (stream w)) []).
Proof.
  revert w. induction l as [|top rest IH]; intros [s st] Hst; simpl in Hst; subst.
  - reflexivity.
  - specialize (IH (mkOut (seekpos top s) rest) eq_refl).
    cbn [length]. cbn [length] in IH.
    change (pop_n (S (S (length rest))))
      with (r <- popPosition ;; p <- tellp ;; rs <- pop_n (S (length rest)) ;;
            ret ((r, p) :: rs)).
    unfold bind at 1 2. cbn [popPosition tellp stack stream tellp_of seekpos opos].
    unfold bind. rewrite IH. simpl. now rewrite seekend_seekpos.
Qed.

(** C4: markers pushed with no pop in between come back in reverse
    order: the first [length ps] calls of [popPosition] return [false] at
    the pushed positions, last pushed first; the next one returns [true]
    at the end of the stream. *)
Theorem nested_marks_reverse (ps : list (nat * list byte)) (w w' : Out)
    (ms : list nat) (rs : list (bool * nat)) (len : nat) :
  stack w = [] ->
  nested_marks ps w = (Ok (ms, rs, len), w') ->
  rs = map (fun m => (false, m)) (rev ms) ++ [(true, len)].
Proof.
  intros Hw H. unfold nested_marks, bind in H.
  destruct (push_all ps w) as [[ms0|e] w1] eqn:E; [|discriminate].
  destruct (push_all_stack _ _ _ _ E) as [Hst Hl].
  rewrite Hw, app_nil_r in Hst.
  rewrite <- Hl, <- (length_rev ms0), (pop_n_spec _ _ Hst) in H.
  unfold stream_length, ret in H. simpl in H. inversion H; subst.
  now destruct (stream w1).
Qed.

Lemma nested_marks_reverse_witness :
  let ps := [(4, [1; 2]%Z); (2, [3]%Z); (8, [])] in
  let w := mkOut (mkSink [9]%Z 1 None) [] in
  let res := nested_marks ps w in
  match fst res with
  | Ok (ms, rs, len) =>
      ms = [1; 7; 10] /\ rs = map (fun m => (false, m)) (rev ms) ++ [(true, len)]
  | Throw _ => False
  end.
Proof.
  intros ps w res.
  assert (E : res = (Ok ([1; 7; 10], [(false, 10); (false, 7); (false, 1); (true, 18)], 18),
                     snd res)) by (vm_compute; reflexivity).
  rewrite E. split; [reflexivity|].
  exact (nested_marks_reverse ps w (snd res) _ _ _ eq_refl E).
Defined.

(** ** Back-patching a placeholder *)

Lemma bind_ok {S A B} (m : M S A) (k : A -> M S B) s a s1 :
  m s = (Ok a, s1) -> bind m k s = k a s1.
Proof. intros H. unfold bind. now rewrite H. Qed.

Lemma skipn_length_app {A} (l m : list A) k : skipn (length l + k) (l ++ m) = skipn k m.
Proof. induction l as [|x l IH]; simpl; auto. Qed.

Lemma overwrite_end l d : overwrite (length l) d l = l ++ d.
Proof.
  unfold overwrite. rewrite firstn_all, skipn_all2 by lia. now rewrite app_nil_r.
Qed.

Lemma overwrite_patch l z d r :
  length z = length d -> overwrite (length l) d ((l ++ z) ++ r) = l ++ d ++ r.
Proof.
  intros Hz. unfold overwrite. rewrite <- app_assoc.
  rewrite firstn_app, firstn_all, Nat.sub_diag, app_nil_r.
  rewrite skipn_length_app, <- Hz, skipn_app_exact. reflexivity.
Qed.

Lemma saveBinary_room data w :
  opos (stream w) <= length (obuf (stream w)) ->
  room_for (stream w) (length data) ->
  saveBinary data (length data) w =
    (Ok tt, with_stream w (mkSink (overwrite (opos (stream w)) data (obuf (stream w)))
                                  (opos (stream w) + length data) (ocap (stream w)))).
Proof.
  intros Hp Hr. rewrite (saveBinary_spec _ _ _ Hp). simpl.
  rewrite firstn_all, (room_for_accepts _ _ Hr), Nat.eqb_refl, firstn_all.
  reflexivity.
Qed.

Lemma save_all_tail ds w :
  opos (stream w) = length (obuf (stream w)) ->
  room_for (stream w) (length (concat ds)) ->
  save_all ds w =
    (Ok tt, with_stream w (mkSink (obuf (stream w) ++ concat ds)
                                  (length (obuf (stream w)) + length (concat ds))
                                  (ocap (stream w)))).
Proof.
  revert w. induction ds as [|d ds IH]; intros [[buf p cap] st] Hp Hr;
    simpl in *; subst p.
  - now rewrite !app_nil_r, Nat.add_0_r.
  - rewrite length_app in Hr.
    assert (Hd : room_for (mkSink buf (length buf) cap) (length d))
      by (unfold room_for in *; simpl in *; destruct cap; lia).
    rewrite (bind_ok _ _ _ _ _ (saveBinary_room d (mkOut (mkSink buf (length buf) cap) st)
                                   (le_n _) Hd)).
    simpl. rewrite overwrite_end.
    rewrite IH; simpl.
    + unfold with_stream; simpl. rewrite <- app_assoc, !length_app, Nat.add_assoc. reflexivity.
    + now rewrite length_app.
    + unfold room_for in *; simpl in *; destruct cap; rewrite ?length_app; lia.
Qed.

(** C2: reserving [size] bytes at the tail, writing [ds], returning to
    the mark, writing a final value of [size] bytes there and seeking to
    the tail leaves the old bytes, then the final value, then [ds]: the
    stream grew by exactly the bytes written, and the position is at its
    end. *)
Theorem patch_placeholder_spec (size : nat) (ds : list (list byte))
    (final : list byte) (w : Out) :
  opos (stream w) = length (obuf (stream w)) ->
  length final = size ->
  room_for (stream w) (size + list_sum (map (@length byte) ds)) ->
  let s := stream w in
  let total := length (obuf s) + size + list_sum (map (@length byte) ds) in
  patch_placeholder size ds final w =
    (Ok tt, mkOut (mkSink (obuf s ++ final ++ concat ds) total (ocap s)) (stack w)) /\
  length (obuf s ++ final ++ concat ds) = total.
Proof.
  intros Hp Hf Hr s total. subst s total. rewrite <- length_concat in *.
  destruct w as [[buf p cap] st]. simpl in *. subst p.
  assert (Hlen : length (buf ++ final ++ concat ds) =
                 length buf + size + length (concat ds))
    by (rewrite !length_app; lia).
  split; [|exact Hlen].
  unfold patch_placeholder.
  rewrite (bind_ok _ _ _ _ _ (pushPosition_general size (mkOut (mkSink buf (length buf) cap) st) (le_n _))). simpl.
  assert (Ha : sink_accepts (mkSink buf (length buf) cap) size = size)
    by (apply room_for_accepts; unfold room_for in *; simpl in *; destruct cap; lia).
  rewrite Ha, overwrite_end.
  set (w1 := mkOut (mkSink (buf ++ repeat 0%Z size) (length buf + size) cap)
                   (length buf :: st)).
  assert (H1 : opos (stream w1) = length (obuf (stream w1)))
    by (simpl; rewrite length_app, repeat_length; reflexivity).
  assert (H2 : room_for (stream w1) (length (concat ds)))
    by (unfold room_for in *; simpl in *; destruct cap; lia).
  rewrite (bind_ok _ _ _ _ _ (save_all_tail ds w1 H1 H2)).
  subst w1. simpl. unfold bind at 1. simpl.
  rewrite <- Hf. unfold seekpos. cbn [obuf ocap].
  set (w2 := mkOut (mkSink ((buf ++ repeat 0%Z (length final)) ++ concat ds)
                           (length buf) cap) st).
  assert (H3 : opos (stream w2) <= length (obuf (stream w2)))
    by (simpl; rewrite !length_app; lia).
  assert (H4 : room_for (stream w2) (length final))
    by (unfold room_for in *; simpl in *; destruct cap; lia).
  rewrite (bind_ok _ _ _ _ _ (saveBinary_room final w2 H3 H4)).
  subst w2. simpl. rewrite overwrite_patch by (now rewrite repeat_length).
  unfold seekp_end, with_stream, seekend. simpl. rewrite Hlen, Hf. reflexivity.
Qed.

Lemma patch_placeholder_spec_witness :
  let w := mkOut (mkSink [] 0 None) [] in
  let ds := [[1; 2; 3]; [4]]%Z in
  let final := [0; 0; 0; 4]%Z in
  let s := stream w in
  let total := length (obuf s) + 4 + list_sum (map (@length byte) ds) in
  patch_placeholder 4 ds final w =
    (Ok tt, mkOut (mkSink (obuf s ++ final ++ concat ds) total (ocap s)) (stack w)) /\
  length (obuf s ++ final ++ concat ds) = total.
Proof.
  intros w ds final s total.
  apply (patch_placeholder_spec 4 ds final w); simpl; [reflexivity | reflexivity | exact I].
Defined.

(** ** Arrays against element-by-element serialization *)

Lemma sputn_le data s : fst (sputn data s) <= length data.
Proof.
  rewrite sputn_count. unfold sink_accepts. destruct (ocap s); lia.
Qed.

Lemma sputn_app d1 d2 s :
  sputn (d1 ++ d2) s =
    let (k1, s1) := sputn d1 s in
    if k1 =? length d1 then let (k2, s2) := sputn d2 s1 in (k1 + k2, s2)
    else (k1, s1).
Proof.
  revert s. induction d1 as [|b d1 IH]; intros s; simpl.
  - now destruct (sputn d2 s).
  - destruct (sputc b s) as [s1|]; [|reflexivity].
    rewrite IH. destruct (sputn d1 s1) as [k1 t1]. simpl Nat.eqb.
    destruct (k1 =? length d1); [|reflexivity].
    now destruct (sputn d2 t1).
Qed.

Lemma obj_repr_firstn native t x :
  firstn (sizeof t) (obj_repr native t x) = obj_repr native t x.
Proof. apply firstn_all2. now rewrite obj_repr_length. Qed.

Lemma length_concat_repr native t xs :
  length (concat (map (obj_repr native t) xs)) = length xs * sizeof t.
Proof.
  induction xs as [|x xs IH]; simpl; [reflexivity|].
  rewrite length_app, obj_repr_length, IH. lia.
Qed.

(** The scalar adapter, element after element, is one [sputn] of all the
    element bytes. *)
Lemma save_elems_sputn native t xs w :
  let d := concat (map (obj_repr native t) xs) in
  snd (save_elems native t xs w) = with_stream w (snd (sputn d (stream w))) /\
  to_option (fst (save_elems native t xs w)) =
    (if fst (sputn d (stream w)) =? length d then Some tt else None).
Proof.
  revert w. induction xs as [|x xs IH]; intros w d; subst d.
  - simpl. now destruct w.
  - cbn [save_elems map concat]. rewrite sputn_app.
    assert (Hs : save_scalar native (mkScalar t x) w =
      (let (k1, s1) := sputn (obj_repr native t x) (stream w) in
       (if k1 =? sizeof t then Ok tt else Throw (WriteFailure (sizeof t) k1),
        with_stream w s1))).
    { unfold save_scalar, saveBinary. simpl. now rewrite obj_repr_firstn. }
    unfold bind. rewrite Hs.
    pose proof (sputn_le (obj_repr native t x) (stream w)) as Hle.
    rewrite obj_repr_length in Hle.
    destruct (sputn (obj_repr native t x) (stream w)) as [k1 s1] eqn:E1.
    rewrite obj_repr_length, length_app, obj_repr_length. simpl in Hle.
    destruct (Nat.eqb_spec k1 (sizeof t)) as [->|Hne].
    + destruct (IH (with_stream w s1)) as [IH1 IH2]. simpl in IH1, IH2.
      destruct (sputn (concat (map (obj_repr native t) xs)) s1) as [k2 s2] eqn:E2.
      simpl in *. split; [exact IH1|]. rewrite IH2.
      destruct (Nat.eqb_spec k2 (length (concat (map (obj_repr native t) xs))));
        destruct (Nat.eqb_spec (sizeof t + k2)
                   (sizeof t + length (concat (map (obj_repr native t) xs))));
        auto; lia.
    + simpl. split; [reflexivity|].
      destruct (Nat.eqb_spec k1 (sizeof t + length (concat (map (obj_repr native t) xs))));
        [lia | reflexivity].
Qed.

Lemma load_scalar_spec native t buf p :
  load_scalar native t (mkSource buf p) =
    (if sizeof t <=? length buf - p
     then Ok (mkScalar t (of_repr native (firstn (sizeof t) (skipn p buf))))
     else Throw (ReadFailure (sizeof t) (Nat.min (sizeof t) (length buf - p))),
     mkSource buf (p + Nat.min (sizeof t) (length buf - p))).
Proof.
  unfold load_scalar, bind, loadBinary. rewrite sgetn_spec. simpl.
  rewrite length_firstn, length_skipn.
  destruct (Nat.leb_spec (sizeof t) (length buf - p));
    destruct (Nat.eqb_spec (Nat.min (sizeof t) (length buf - p)) (sizeof t));
    try lia; reflexivity.
Qed.

(** The scalar adapter, [n] times, reads what one [sgetn] of the [n]
    elements' bytes reads. *)
Lemma load_elems_spec native t n buf p :
  let sz := sizeof t in
  to_option (fst (load_elems native t n (mkSource buf p))) =
    (if n * sz <=? length buf - p
     then Some (array_of_bytes native sz n (firstn (n * sz) (skipn p buf)))
     else None) /\
  snd (load_elems native t n (mkSource buf p)) =
    mkSource buf (p + Nat.min (n * sz) (length buf - p)).
Proof.
  intros sz. revert p. induction n as [|n IH]; intros p.
  - simpl. split; [reflexivity|]. now rewrite Nat.add_0_r.
  - change (load_elems native t (S n))
      with (x <- load_scalar native t ;; xs <- load_elems native t n ;;
            ret (sbits x :: xs)).
    unfold bind. rewrite load_scalar_spec. fold sz.
    destruct (Nat.leb_spec sz (length buf - p)) as [Hle|Hgt].
    + destruct (IH (p + sz)) as [IH1 IH2].
      destruct (load_elems native t n (mkSource buf (p + Nat.min sz (length buf - p))))
        as [res st] eqn:E.
      replace (Nat.min sz (length buf - p)) with sz in * by lia.
      rewrite E in IH1, IH2. simpl in IH1, IH2. subst st.
      destruct res as [xs|e]; simpl in *.
      * split; [|f_equal; lia].
        destruct (Nat.leb_spec (n * sz) (length buf - (p + sz))); [|discriminate].
        injection IH1 as ->.
        replace (sz + n * sz <=? length buf - p) with true
          by (symmetry; apply Nat.leb_le; lia).
        cbn [array_of_bytes]. rewrite firstn_firstn, skipn_firstn_comm, skipn_skipn.
        replace (Nat.min sz (sz + n * sz)) with sz by lia.
        replace (sz + n * sz - sz) with (n * sz) by lia.
        now rewrite (Nat.add_comm sz p).
      * split; [|f_equal; lia].
        destruct (Nat.leb_spec (n * sz) (length buf - (p + sz))); [discriminate|].
        replace (sz + n * sz <=? length buf - p) with false
          by (symmetry; apply Nat.leb_gt; lia).
        reflexivity.
    + simpl. split; [|f_equal; lia].
      replace (sz + n * sz <=? length buf - p) with false
        by (symmetry; apply Nat.leb_gt; lia).
      reflexivity.
Qed.

(** C7: the array adapter transfers the whole storage of the array, of
    [elementCount * sizeof(element)] bytes, in one [saveBinary] (one
    [loadBinary]), and ends in the same stream state, with the same
    outcome and, when it succeeds, the same elements as the scalar adapter
    applied to each element in turn. *)
Theorem array_adapter_elementwise (native : endian) (a : carray) (w : Out)
    (t : arith) (n : nat) (r : Source) :
  length (array_bytes native a) = array_size a /\
  save_array native a w = saveBinary (array_bytes native a) (array_size a) w /\
  snd (save_array native a w) = snd (save_elems native (aty a) (aelems a) w) /\
  to_option (fst (save_array native a w)) =
    to_option (fst (save_elems native (aty a) (aelems a) w)) /\
  load_array native t n r =
    (bytes <- loadBinary (n * sizeof t) ;;
     ret (mkCArray t (array_of_bytes native (sizeof t) n bytes))) r /\
  snd (load_array native t n r) = snd (load_elems native t n r) /\
  option_map aelems (to_option (fst (load_array native t n r))) =
    to_option (fst (load_elems native t n r)).
Proof.
  assert (Hlen : length (array_bytes native a) = array_size a)
    by apply length_concat_repr.
  destruct (save_elems_sputn native (aty a) (aelems a) w) as [S1 S2].
  destruct r as [buf p].
  destruct (load_elems_spec native t n buf p) as [L1 L2].
  assert (Hs : save_array native a w =
    (let (k, s1) := sputn (array_bytes native a) (stream w) in
     (if k =? array_size a then Ok tt else Throw (WriteFailure (array_size a) k),
      with_stream w s1))).
  { unfold save_array, saveBinary. rewrite <- Hlen, firstn_all. reflexivity. }
  assert (Hl : load_array native t n (mkSource buf p) =
    (if n * sizeof t <=? length buf - p
     then Ok (mkCArray t (array_of_bytes native (sizeof t) n
                            (firstn (n * sizeof t) (skipn p buf))))
     else Throw (ReadFailure (n * sizeof t) (Nat.min (n * sizeof t) (length buf - p))),
     mkSource buf (p + Nat.min (n * sizeof t) (length buf - p)))).
  { unfold load_array, bind, loadBinary. rewrite sgetn_spec. simpl.
    rewrite length_firstn, length_skipn.
    destruct (Nat.leb_spec (n * sizeof t) (length buf - p));
      destruct (Nat.eqb_spec (Nat.min (n * sizeof t) (length buf - p)) (n * sizeof t));
      try lia; reflexivity. }
  split; [exact Hlen|]. split; [reflexivity|].
  split; [|split]; [| |split; [reflexivity|split]].
  - rewrite S1, Hs. unfold array_bytes. now destruct (sputn _ _).
  - rewrite S2, Hs. unfold array_bytes in *. rewrite <- Hlen.
    destruct (sputn _ _) as [k s1]. simpl.
    destruct (k =? length (concat (map (obj_repr native (aty a)) (aelems a)))); reflexivity.
  - rewrite L2, Hl. reflexivity.
  - rewrite L1, Hl. now destruct (n * sizeof t <=? length buf - p).
Qed.

(** ** Further properties of the archives *)

Lemma length_overwrite_ge p d l :
  p <= length l -> length l <= length (overwrite p d l).
Proof.
  intros Hp. unfold overwrite. rewrite !length_app, length_skipn, firstn_length_le by lia.
  lia.
Qed.

Lemma Forall_le_mono (l : list nat) a b :
  a <= b -> Forall (fun m => m <= a) l -> Forall (fun m => m <= b) l.
Proof. intros Hab H. eapply Forall_impl; [|exact H]. simpl. lia. Qed.

(** What [saveBinary] does in every case, short writes included. *)
Lemma saveBinary_state data size w :
  opos (stream w) <= length (obuf (stream w)) ->
  exists k, k <= length (firstn size data) /\
    snd (saveBinary data size w) =
      with_stream w (mkSink (overwrite (opos (stream w)) (firstn k (firstn size data))
                                       (obuf (stream w)))
                            (opos (stream w) + k) (ocap (stream w))).
Proof.
  intros Hp. exists (sink_accepts (stream w) (length (firstn size data))).
  split; [unfold sink_accepts; destruct (ocap (stream w)); lia|].
  rewrite (saveBinary_spec _ _ _ Hp). reflexivity.
Qed.

(** The put position and the saved positions stay within the stream
    through every operation of the output archive, whether it throws or
    not. *)
Theorem wf_preserved (w : Out) (data : list byte) (size : nat) :
  wf w ->
  wf (snd (saveBinary data size w)) /\
  wf (snd (pushPosition size w)) /\
  wf (snd (popPosition w)) /\
  wf (snd (resetPosition w)).
Proof.
  intros [Hp Hst]. split; [|split; [|split]].
  - destruct (saveBinary_state data size w Hp) as [k [Hk E]]. rewrite E.
    unfold wf, with_stream; simpl.
    pose proof (length_overwrite_ge (opos (stream w)) (firstn k (firstn size data)) _ Hp).
    pose proof (length_overwrite (opos (stream w)) (firstn k (firstn size data)) _ Hp).
    rewrite (firstn_length_le _ Hk) in *. split; [lia|].
    eapply Forall_le_mono; [|exact Hst]. lia.
  - rewrite (pushPosition_general _ _ Hp). unfold wf; simpl.
    pose proof (length_overwrite_ge (opos (stream w)) (repeat 0%Z (sink_accepts (stream w) size)) _ Hp).
    pose proof (length_overwrite (opos (stream w)) (repeat 0%Z (sink_accepts (stream w) size)) _ Hp).
    rewrite repeat_length in *. split; [lia|].
    constructor; [lia|]. eapply Forall_le_mono; [|exact Hst]. lia.
  - unfold popPosition. destruct (stack w) as [|top rest] eqn:E.
    + unfold wf; simpl. rewrite E. split; [lia | constructor].
    + inversion Hst; subst. unfold wf; simpl. auto.
  - destruct (reset_loop_spec (S (length (stack w))) w) as [E _]; [lia|].
    unfold resetPosition. rewrite E. unfold wf; simpl. split; [lia | constructor].
Qed.

Lemma wf_preserved_witness :
  let w := mkOut (mkSink [5; 6]%Z 1 (Some 3)) [0; 2] in
  wf w /\
  (wf (snd (saveBinary [1; 2; 3]%Z 3 w)) /\
   wf (snd (pushPosition 4 w)) /\
   wf (snd (popPosition w)) /\
   wf (snd (resetPosition w))).
Proof.
  intros w. assert (H : wf w) by (unfold wf; simpl; repeat constructor; lia).
  split; [exact H | exact (wf_preserved w [1; 2; 3]%Z 3 H)].
Defined.

(** No operation of the output archive shortens the stream: writes only
    overwrite or extend it, and the position operations leave its bytes
    as they are. *)
Theorem stream_never_truncated (w : Out) (data : list byte) (size : nat) :
  opos (stream w) <= length (obuf (stream w)) ->
  length (obuf (stream w)) <= length (obuf (stream (snd (saveBinary data size w)))) /\
  length (obuf (stream w)) <= length (obuf (stream (snd (pushPosition size w)))) /\
  obuf (stream (snd (popPosition w))) = obuf (stream w) /\
  obuf (stream (snd (resetPosition w))) = obuf (stream w).
Proof.
  intros Hp. split; [|split; [|split]].
  - destruct (saveBinary_state data size w Hp) as [k [_ E]]. rewrite E.
    simpl. now apply length_overwrite_ge.
  - rewrite (pushPosition_general _ _ Hp). simpl. now apply length_overwrite_ge.
  - unfold popPosition. now destruct (stack w).
  - destruct (reset_loop_spec (S (length (stack w))) w) as [E _]; [lia|].
    unfold resetPosition. now rewrite E.
Qed.

Lemma stream_never_truncated_witness :
  let w := mkOut (mkSink [5; 6; 7]%Z 1 (Some 2)) [0] in
  opos (stream w) <= length (obuf (stream w)) /\
  (length (obuf (stream w)) <= length (obuf (stream (snd (saveBinary [1; 2]%Z 2 w)))) /\
   length (obuf (stream w)) <= length (obuf (stream (snd (pushPosition 3 w)))) /\
   obuf (stream (snd (popPosition w))) = obuf (stream w) /\
   obuf (stream (snd (resetPosition w))) = obuf (stream w)).
Proof.
  intros w. assert (H : opos (stream w) <= length (obuf (stream w))) by (simpl; lia).
  split; [exact H | exact (stream_never_truncated w [1; 2]%Z 2 H)].
Defined.

(** A short write is not rolled back: [saveBinary] throws after the
    accepted bytes are in the stream and the position has moved past
    them. *)
Theorem saveBinary_short_write_kept (data : list byte) (w : Out) :
  opos (stream w) <= length (obuf (stream w)) ->
  sink_accepts (stream w) (length data) < length data ->
  let s := stream w in
  let k := sink_accepts s (length data) in
  saveBinary data (length data) w =
    (Throw (WriteFailure (length data) k),
     mkOut (mkSink (firstn (opos s) (obuf s) ++ firstn k data ++
                      skipn (opos s + k) (obuf s))
                   (opos s + k) (ocap s))
           (stack w)).
Proof.
  intros Hp Hlt s k. rewrite (saveBinary_spec _ _ _ Hp). fold s.
  rewrite firstn_all. fold k.
  assert (Hk : k < length data) by exact Hlt.
  destruct (Nat.eqb_spec k (length data)); [lia|].
  unfold overwrite, with_stream. rewrite length_firstn.
  now replace (Nat.min k (length data)) with k by lia.
Qed.

Lemma saveBinary_short_write_kept_witness :
  let w := mkOut (mkSink [9]%Z 1 (Some 3)) [] in
  let data := [1; 2; 3; 4]%Z in
  opos (stream w) <= length (obuf (stream w)) /\
  sink_accepts (stream w) (length data) < length data /\
  saveBinary data (length data) w =
    (Throw (WriteFailure 4 2), mkOut (mkSink [9; 1; 2]%Z 3 (Some 3)) []).
Proof.
  intros w data.
  assert (H1 : opos (stream w) <= length (obuf (stream w))) by (simpl; lia).
  assert (H2 : sink_accepts (stream w) (length data) < length data)
    by (vm_compute; lia).
  split; [exact H1|]. split; [exact H2|].
  exact (saveBinary_short_write_kept data w H1 H2).
Defined.

(** [loadBinary] in every case: it succeeds with the next [n] bytes and
    moves [n] on when they are there; otherwise it throws, reporting the
    bytes it did read, and the source is left at its end. *)
Theorem loadBinary_spec (n : nat) (r : Source) :
  let avail := length (ibuf r) - ipos r in
  loadBinary n r =
    if n <=? avail
    then (Ok (firstn n (skipn (ipos r) (ibuf r))), mkSource (ibuf r) (ipos r + n))
    else (Throw (ReadFailure n avail), mkSource (ibuf r) (ipos r + avail)).
Proof.
  intros avail. unfold loadBinary. rewrite sgetn_spec.
  rewrite length_firstn, length_skipn. fold avail.
  destruct (Nat.leb_spec n avail).
  - replace (Nat.min n avail) with n by lia. now rewrite Nat.eqb_refl.
  - replace (Nat.min n avail) with avail by lia.
    destruct (Nat.eqb_spec avail n); [lia | reflexivity].
Qed.

(** Zero-byte transfers: saving or loading zero bytes, or reserving a
    zero-byte placeholder, never throws and moves nothing, even on a sink
    that is full or a source that is exhausted. *)
Theorem zero_size_transfers (data : list byte) (w : Out) (r : Source) :
  saveBinary data 0 w = (Ok tt, w) /\
  loadBinary 0 r = (Ok [], r) /\
  pushPosition 0 w = (Ok tt, mkOut (stream w) (opos (stream w) :: stack w)).
Proof.
  split; [|split].
  - unfold saveBinary. rewrite firstn_O. simpl. now destruct w.
  - reflexivity.
  - reflexivity.
Qed.

(** Reserving a placeholder and returning to the mark right away brings
    the stream back to where the reservation started, with the saved
    positions as before and the reserved bytes zeroed. *)
Theorem push_then_pop_returns (size : nat) (w : Out) :
  opos (stream w) <= length (obuf (stream w)) ->
  let s := stream w in
  let k := sink_accepts s size in
  (pushPosition size ;; popPosition) w =
    (Ok false, mkOut (mkSink (overwrite (opos s) (repeat 0%Z k) (obuf s))
                             (opos s) (ocap s))
                     (stack w)).
Proof.
  intros Hp s k. rewrite (bind_ok _ _ _ _ _ (pushPosition_general size w Hp)).
  reflexivity.
Qed.

Lemma push_then_pop_returns_witness :
  let w := mkOut (mkSink [1; 2; 3]%Z 1 None) [3] in
  let s := stream w in
  let k := sink_accepts s 2 in
  (pushPosition 2 ;; popPosition) w =
    (Ok false, mkOut (mkSink (overwrite (opos s) (repeat 0%Z k) (obuf s))
                             (opos s) (ocap s))
                     (stack w)).
Proof. intros w s k. apply (push_then_pop_returns 2 w). simpl; lia. Defined.

(** A placeholder reserved at the tail and never patched stays in the
    stream as zero bytes after [resetPosition], which empties the stack
    and leaves the stream at its end. *)
Theorem unpatched_placeholder_zero (size : nat) (w : Out) :
  opos (stream w) = length (obuf (stream w)) ->
  let s := stream w in
  let k := sink_accepts s size in
  (pushPosition size ;; resetPosition) w =
    (Ok true, mkOut (mkSink (obuf s ++ repeat 0%Z k) (length (obuf s) + k) (ocap s)) []).
Proof.
  intros Hp s k.
  rewrite (bind_ok _ _ _ _ _ (pushPosition_general size w (Nat.eq_le_incl _ _ Hp))).
  fold s. fold k. assert (Hp' : opos s = length (obuf s)) by exact Hp.
  rewrite Hp', overwrite_end.
  unfold resetPosition.
  destruct (reset_loop_spec (S (length (stack (mkOut (mkSink (obuf s ++ repeat 0%Z k)
              (length (obuf s) + k) (ocap s)) (length (obuf s) :: stack w)))))
              (mkOut (mkSink (obuf s ++ repeat 0%Z k) (length (obuf s) + k) (ocap s))
                     (length (obuf s) :: stack w))) as [E _]; [lia|].
  rewrite E. unfold seekend. cbn [stream obuf ocap]. now rewrite length_app, repeat_length.
Qed.

Lemma unpatched_placeholder_zero_witness :
  let w := mkOut (mkSink [1; 2]%Z 2 (Some 3)) [0] in
  let s := stream w in
  let k := sink_accepts s 4 in
  (pushPosition 4 ;; resetPosition) w =
    (Ok true, mkOut (mkSink (obuf s ++ repeat 0%Z k) (length (obuf s) + k) (ocap s)) []).
Proof. intros w s k. apply (unpatched_placeholder_zero 4 w). reflexivity. Defined.

Lemma firstn_app_exact {A} (l m : list A) n : length l = n -> firstn n (l ++ m) = l.
Proof.
  intros <-. rewrite firstn_app, firstn_all, Nat.sub_diag. simpl. apply app_nil_r.
Qed.

Lemma array_of_bytes_concat native t xs rest :
  Forall (fun x => valid (mkScalar t x)) xs ->
  array_of_bytes native (sizeof t) (length xs)
    (concat (map (obj_repr native t) xs) ++ rest) = xs.
Proof.
  induction xs as [|x xs IH]; intros Hv; [reflexivity|].
  inversion Hv as [|? ? Hx Hxs]; subst.
  cbn [length array_of_bytes map concat]. rewrite <- app_assoc.
  rewrite firstn_app_exact by apply obj_repr_length.
  rewrite <- (obj_repr_length native t x) at 2. rewrite skipn_app_exact.
  rewrite (IH Hxs). f_equal. exact (of_repr_obj_repr native (mkScalar t x) Hx).
Qed.

(** An array of arithmetic elements saved by the array adapter is read
    back, from where it was written, by the array adapter for the same
    element type and count, element for element. *)
Theorem array_roundtrip (native : endian) (a : carray) (w w' : Out) :
  Forall (fun x => valid (mkScalar (aty a) x)) (aelems a) ->
  opos (stream w) <= length (obuf (stream w)) ->
  save_array native a w = (Ok tt, w') ->
  load_array native (aty a) (length (aelems a))
    (mkSource (obuf (stream w')) (opos (stream w))) =
    (Ok a, mkSource (obuf (stream w')) (opos (stream w'))).
Proof.
  intros Hv Hp H. unfold save_array in H.
  assert (Hlen : length (array_bytes native a) = array_size a)
    by apply length_concat_repr.
  rewrite <- Hlen in H. apply (saveBinary_ok _ _ _ Hp) in H. subst w'. simpl.
  unfold load_array.
  replace (length (aelems a) * sizeof (aty a)) with (length (array_bytes native a))
    by exact Hlen.
  rewrite (bind_ok _ _ _ _ _ (loadBinary_overwrite _ _ _ Hp)). unfold ret.
  unfold array_bytes. rewrite <- (app_nil_r (concat _)).
  rewrite (array_of_bytes_concat _ _ _ _ Hv), app_nil_r.
  now destruct a.
Qed.

Lemma array_roundtrip_witness :
  let a := mkCArray TShort [1; 65535; 256]%Z in
  let w := mkOut (mkSink [7]%Z 1 None) [] in
  let w' := snd (save_array BigEndian a w) in
  load_array BigEndian (aty a) (length (aelems a))
    (mkSource (obuf (stream w')) (opos (stream w))) =
    (Ok a, mkSource (obuf (stream w')) (opos (stream w'))).
Proof.
  intros a w w'. apply (array_roundtrip BigEndian a w w').
  - repeat constructor; unfold valid; simpl; lia.
  - simpl; lia.
  - reflexivity.
Defined.

Lemma overwrite_app p d1 d2 l :
  p <= length l ->
  overwrite (p + length d1) d2 (overwrite p d1 l) = overwrite p (d1 ++ d2) l.
Proof.
  intros Hp. unfold overwrite.
  set (a := firstn p l). set (b := skipn (p + length d1) l).
  assert (Hf : length a = p) by (apply firstn_length_le; lia).
  rewrite (app_assoc a d1 b).
  rewrite firstn_app_exact by (rewrite length_app, Hf; lia).
  rewrite <- (app_assoc a d1 b).
  replace (p + length d1 + length d2) with (length a + (length d1 + length d2)) by lia.
  rewrite !skipn_length_app. unfold b. rewrite skipn_skipn, length_app.
  rewrite <- !app_assoc. do 4 f_equal. lia.
Qed.

Lemma save_scalars_ok native vs w w' :
  opos (stream w) <= length (obuf (stream w)) ->
  save_scalars native vs w = (Ok tt, w') ->
  w' = with_stream w (mkSink (overwrite (opos (stream w)) (scalars_repr native vs)
                                        (obuf (stream w)))
                             (opos (stream w) + length (scalars_repr native vs))
                             (ocap (stream w))).
Proof.
  revert w. induction vs as [|v vs IH]; intros w Hp H.
  - cbn in H. injection H as <-. unfold scalars_repr. cbn.
    rewrite overwrite_nil, Nat.add_0_r. now destruct w as [[] ?].
  - cbn [save_scalars] in H. unfold bind at 1 in H.
    destruct (save_scalar native v w) as [r w1] eqn:E.
    destruct r as [[]|]; [|discriminate].
    unfold save_scalar in E. rewrite <- (obj_repr_length native (sty v) (sbits v)) in E.
    apply (saveBinary_ok _ _ _ Hp) in E. subst w1.
    apply IH in H; [|cbn; apply length_overwrite; exact Hp].
    subst w'. unfold with_stream. cbn [stream obuf opos ocap stack]. change (scalars_repr native (v :: vs)) with (obj_repr native (sty v) (sbits v) ++ scalars_repr native vs).
    rewrite overwrite_app by exact Hp. rewrite length_app, Nat.add_assoc. reflexivity.
Qed.

Lemma load_scalars_from native vs pre post :
  Forall valid vs ->
  load_scalars native (map sty vs)
    (mkSource (pre ++ scalars_repr native vs ++ post) (length pre)) =
    (Ok vs, mkSource (pre ++ scalars_repr native vs ++ post)
                     (length pre + length (scalars_repr native vs))).
Proof.
  revert pre. induction vs as [|v vs IH]; intros pre Hv.
  - cbn. now rewrite Nat.add_0_r.
  - inversion Hv as [|? ? Hx Hxs]; subst.
    unfold scalars_repr. cbn [map concat load_scalars]. fold (scalars_repr native vs).
    set (r := obj_repr native (sty v) (sbits v)).
    assert (Hr : length r = sizeof (sty v)) by apply obj_repr_length.
    assert (Hl : load_scalar native (sty v)
                   (mkSource (pre ++ (r ++ scalars_repr native vs) ++ post) (length pre)) =
                 (Ok v, mkSource (pre ++ (r ++ scalars_repr native vs) ++ post)
                                 (length (pre ++ r)))).
    { rewrite load_scalar_spec, !length_app.
      rewrite (proj2 (Nat.leb_le _ _)) by lia.
      rewrite skipn_app_exact, <- app_assoc, firstn_app_exact by exact Hr.
      rewrite Nat.min_l by lia. rewrite <- Hr.
      unfold r. rewrite (of_repr_obj_repr native v Hx). now destruct v. }
    rewrite (bind_ok _ _ _ _ _ Hl).
    replace (pre ++ (r ++ scalars_repr native vs) ++ post)
      with ((pre ++ r) ++ scalars_repr native vs ++ post)
      by now rewrite <- !app_assoc.
    rewrite (bind_ok _ _ _ _ _ (IH (pre ++ r) Hxs)). unfold ret.
    rewrite !length_app, Nat.add_assoc. reflexivity.
Qed.

(** A sequence of arithmetic values of any types, saved one after another,
    is read back from where the first was written by loading the same types
    in the same order; each load ends where the next save began. *)
Theorem scalars_roundtrip (native : endian) (vs : list scalar) (w w' : Out) :
  Forall valid vs ->
  opos (stream w) <= length (obuf (stream w)) ->
  save_scalars native vs w = (Ok tt, w') ->
  load_scalars native (map sty vs) (mkSource (obuf (stream w')) (opos (stream w))) =
    (Ok vs, mkSource (obuf (stream w')) (opos (stream w'))).
Proof.
  intros Hv Hp H. apply (save_scalars_ok _ _ _ _ Hp) in H. subst w'. cbn.
  unfold overwrite.
  assert (Hf : length (firstn (opos (stream w)) (obuf (stream w))) = opos (stream w))
    by (apply firstn_length_le; lia).
  pose proof (load_scalars_from native vs (firstn (opos (stream w)) (obuf (stream w)))
    (skipn (opos (stream w) + length (scalars_repr native vs)) (obuf (stream w))) Hv) as L.
  rewrite Hf in L. exact L.
Qed.

Lemma scalars_roundtrip_witness :
  let vs := [mkScalar TInt 4294967295; mkScalar TChar 65; mkScalar TDouble 1]%Z in
  let w := mkOut (mkSink [1; 2; 3]%Z 3 None) [] in
  let w' := snd (save_scalars LittleEndian vs w) in
  load_scalars LittleEndian (map sty vs) (mkSource (obuf (stream w')) (opos (stream w))) =
    (Ok vs, mkSource (obuf (stream w')) (opos (stream w'))).
Proof.
  intros vs w w'. apply (scalars_roundtrip LittleEndian vs w w').
  - repeat constructor; unfold valid; simpl; lia.
  - simpl; lia.
  - reflexivity.
Defined.
